(** * Great-circle (haversine) distance of Chapter 14.1

    A shallow embedding of the [haversine] function defined in the code cell
    of [Chapter 14/Chapter 14.1.ipynb], and the properties stated about it.

    Numbers.  The notebook computes on [np.float64].  Here a float is a real
    number of [R]: arithmetic is exact, [np.sin], [np.cos] are the real sine
    and cosine, and the two numpy functions with a restricted domain,
    [np.sqrt] and [np.arcsin], are partial: outside their domain numpy
    signals its invalid-value condition and yields nan, which the model
    records as the error [InvalidValue].  Rounding is not modelled.

    Exact arithmetic.  What is proved of the exceptions, of the binding of
    the arguments and of the colour dicts does not depend on the arithmetic.
    What is proved of the distances is proved of the formula that the code
    evaluates, in exact real arithmetic; the float64 evaluation agrees with
    it up to rounding.  The statements that rounding can break (an exact
    equality between two computed distances, a distance that is exactly 0
    or exactly the largest one, the range of the intermediate value) say so
    in their first words.

    Values.  A Python argument is a float or a sequence of floats (tuple or
    list); a point is the sequence [(lon, lat)].  The floats are finite:
    nan and the infinities are not values of the model. *)

From Stdlib Require Import ZArith Reals Lra Lia List String.
Import ListNotations.
Open Scope R_scope.

(** ** Errors and their monad *)

Inductive error : Type :=
| TypeError      (* wrong number or names of arguments, or a float iterated *)
| ValueError     (* unpacking a sequence whose length is not 2 *)
| InvalidValue.  (* numpy invalid value: the result is nan *)

Inductive result (A : Type) : Type :=
| Ok (a : A)
| Raise (e : error).

Arguments Ok {A} a.
Arguments Raise {A} e.

Definition bind {A B : Type} (m : result A) (k : A -> result B) : result B :=
  match m with
  | Ok a => k a
  | Raise e => Raise e
  end.

Notation "x <- m ;; k" := (bind m (fun x => k))
  (at level 61, m at next level, right associativity).
Notation "' p <- m ;; k" := (bind m (fun x => let p := x in k))
  (at level 61, p pattern, m at next level, right associativity).

(** ** Python values *)

Inductive value : Type :=
| VFloat (x : R)
| VSeq (xs : list R).

(** The point [(lon, lat)], as the notebook writes [oslo = (10.75, 59.91)]. *)
Definition point (lon lat : R) : value := VSeq [lon; lat].

(** [for x in v]: a sequence is iterated, a float is not iterable. *)
Definition iter (v : value) : result (list R) :=
  match v with
  | VSeq xs => Ok xs
  | VFloat _ => Raise TypeError
  end.

(** [a, b = xs]: exactly two elements are required. *)
Definition unpack2 (xs : list R) : result (R * R) :=
  match xs with
  | [a; b] => Ok (a, b)
  | _ => Raise ValueError
  end.

(** ** numpy primitives *)

Module np.

(** [np.radians]: degrees to radians. *)
Definition radians (x : R) : R := x * (PI / 180).

(** [np.sqrt]: defined on the non-negative reals. *)
Definition sqrt (x : R) : result R :=
  if Rle_dec 0 x then Ok (R_sqrt.sqrt x) else Raise InvalidValue.

(** [np.arcsin]: defined on [-1, 1]. *)
Definition arcsin (x : R) : result R :=
  if Rle_dec (-1) x then
    if Rle_dec x 1 then Ok (asin x) else Raise InvalidValue
  else Raise InvalidValue.

End np.

(** ** The code cell *)

(** [EARTH_RADIUS = 6371.009], mean radius of the earth (in km). *)
Definition EARTH_RADIUS : R := 6371.009.

(** The haversine term [a] of the body, on coordinates already in radians. *)
Definition hav_a (lon1 lat1 lon2 lat2 : R) : R :=
  let dlon := lon2 - lon1 in
  let dlat := lat2 - lat1 in
  sin (dlat / 2) ^ 2 + cos lat1 * cos lat2 * sin (dlon / 2) ^ 2.

(** [def haversine(point1, point2)]. *)
Definition haversine (point1 point2 : value) : result R :=
  xs1 <- iter point1 ;;
  '(lon1, lat1) <- unpack2 (map np.radians xs1) ;;
  xs2 <- iter point2 ;;
  '(lon2, lat2) <- unpack2 (map np.radians xs2) ;;
  let a := hav_a lon1 lat1 lon2 lat2 in
  s <- np.sqrt a ;;
  t <- np.arcsin s ;;
  Ok (2 * EARTH_RADIUS * t).

(** ** Calling [haversine]

    The signature [def haversine(point1, point2)] has two parameters, no
    default and no variadic parameter.  A call binds the positional
    arguments from the left, then the keyword arguments by name; an extra
    positional argument, an unknown or repeated name, or a parameter left
    unbound raises [TypeError] before the body runs. *)

Definition params : list string := ["point1"; "point2"]%string.

Definition env : Type := list (string * value).

Fixpoint lookup (name : string) (e : env) : option value :=
  match e with
  | [] => None
  | (k, v) :: e' => if String.eqb name k then Some v else lookup name e'
  end.

Fixpoint bind_positional (ps : list string) (args : list value)
  : result (env * list string) :=
  match args, ps with
  | [], _ => Ok ([], ps)
  | _ :: _, [] => Raise TypeError
  | v :: args', p :: ps' =>
      '(e, free) <- bind_positional ps' args' ;;
      Ok ((p, v) :: e, free)
  end.

Fixpoint bind_keywords (free : list string) (e : env)
  (kwargs : list (string * value)) : result env :=
  match kwargs with
  | [] => match free with [] => Ok e | _ :: _ => Raise TypeError end
  | (k, v) :: kwargs' =>
      if existsb (String.eqb k) free
      then bind_keywords (filter (fun p => negb (String.eqb k p)) free)
             ((k, v) :: e) kwargs'
      else Raise TypeError
  end.

(** A call of [haversine] with positional arguments [args] and keyword
    arguments [kwargs]. *)
Definition call_haversine (args : list value) (kwargs : list (string * value))
  : result R :=
  '(e, free) <- bind_positional params args ;;
  e' <- bind_keywords free e kwargs ;;
  match lookup "point1" e', lookup "point2" e' with
  | Some point1, Some point2 => haversine point1 point2
  | _, _ => Raise TypeError
  end.

(** ** The distance of the specification

    Written after the specification's contract
    [distance(pointA, pointB, radius = 6371.009)], with the total real
    functions: coordinates to radians, the differences, the term [a], and
    [2 * radius * arcsin (sqrt a)]. *)

Definition deg2rad (d : R) : R := d * PI / 180.

Definition spec_a (pointA pointB : R * R) : R :=
  let lam1 := deg2rad (fst pointA) in
  let phi1 := deg2rad (snd pointA) in
  let lam2 := deg2rad (fst pointB) in
  let phi2 := deg2rad (snd pointB) in
  let dlam := lam2 - lam1 in
  let dphi := phi2 - phi1 in
  (sin (dphi / 2))² + cos phi1 * cos phi2 * (sin (dlam / 2))².

Definition spec_distance (radius : R) (pointA pointB : R * R) : R :=
  2 * radius * asin (R_sqrt.sqrt (spec_a pointA pointB)).

(** The angle at the centre of the sphere between two points, in radians:
    the distance on the sphere of radius 1. *)
Definition central_angle (lon1 lat1 lon2 lat2 : R) : R :=
  2 * asin (R_sqrt.sqrt
              (hav_a (np.radians lon1) (np.radians lat1)
                     (np.radians lon2) (np.radians lat2))).

(** The coordinate ranges of the specification's data model. *)
Definition in_range (lon lat : R) : Prop :=
  -180 <= lon <= 180 /\ -90 <= lat <= 90.

(** ** The sphere

    The docstring of [haversine] names its result the great circle distance
    between two points on the Earth.  The point of longitude [lon] and
    latitude [lat], in degrees, of the unit sphere is the vector below; the
    great-circle distance of two points of the sphere of radius [r] is [r]
    times the angle between their vectors, the arc cosine of their inner
    product. *)

Definition vec : Type := (R * R * R)%type.

Definition unit_vector (lon lat : R) : vec :=
  let lam := np.radians lon in
  let phi := np.radians lat in
  (cos phi * cos lam, cos phi * sin lam, sin phi).

Definition dot (u v : vec) : R :=
  let '(ux, uy, uz) := u in
  let '(vx, vy, vz) := v in
  ux * vx + uy * vy + uz * vz.

Definition great_circle (r : R) (u v : vec) : R := r * acos (dot u v).

(** An argument that is a sequence of exactly two floats. *)
Definition is_pair (v : value) : Prop :=
  exists lon lat : R, v = point lon lat.

(** ** The colours of the clusters

    The second notebook of the file, on hierarchical clustering, turns the
    cluster labels into colours with [pd.Series(clusters).map({...})]: each
    label is looked up in the dict, and a label that is not a key becomes
    NaN, here [None].  The labels of scikit-learn start at 0, those of
    scipy's [fcluster] at 1. *)

Definition dict : Type := list (Z * string).

Fixpoint dict_get (d : dict) (k : Z) : option string :=
  match d with
  | [] => None
  | (k', c) :: d' => if Z.eqb k k' then Some c else dict_get d' k
  end.

Definition Series_map (d : dict) (s : list Z) : list (option string) :=
  map (dict_get d) s.

(** [{0: "r", 1: "b", 2: "y"}], for [model.labels_]. *)
Definition sklearn_colors : dict :=
  [(0%Z, "r"%string); (1%Z, "b"%string); (2%Z, "y"%string)].

(** [{1: "r", 2: "b", 3: "y"}], for [fcluster(Z, 3, criterion="maxclust")]. *)
Definition scipy_colors : dict :=
  [(1%Z, "r"%string); (2%Z, "b"%string); (3%Z, "y"%string)].

(** * Properties *)

(** ** The term [a] *)

Lemma sin_half_sqr (x : R) : sin (x / 2) ^ 2 = (1 - cos x) / 2.
Proof.
  replace x with (2 * (x / 2)) at 2 by field.
  rewrite cos_2a_sin. simpl. field.
Qed.

Lemma sin_sqr_bounds (x : R) : 0 <= sin x ^ 2 <= 1.
Proof.
  pose proof (sin2_cos2 x) as H. unfold Rsqr in H.
  pose proof (pow2_ge_0 (sin x)). pose proof (pow2_ge_0 (cos x)).
  simpl in *. lra.
Qed.

(** [a] is a convex combination, with weight [sin² (dlon/2)], of
    [sin² (dlat/2)] and [(1 + cos (lat1 + lat2)) / 2]. *)
Lemma hav_a_convex (lon1 lat1 lon2 lat2 : R) :
  let T := sin ((lon2 - lon1) / 2) ^ 2 in
  hav_a lon1 lat1 lon2 lat2 =
  (1 - T) * ((1 - cos (lat2 - lat1)) / 2) + T * ((1 + cos (lat1 + lat2)) / 2).
Proof.
  intros T. unfold hav_a. fold T.
  rewrite sin_half_sqr, cos_minus, cos_plus. field.
Qed.

Lemma hav_a_range (lon1 lat1 lon2 lat2 : R) :
  0 <= hav_a lon1 lat1 lon2 lat2 <= 1.
Proof.
  rewrite hav_a_convex.
  set (T := sin ((lon2 - lon1) / 2) ^ 2).
  pose proof (sin_sqr_bounds ((lon2 - lon1) / 2)) as HT. fold T in HT.
  pose proof (COS_bound (lat2 - lat1)) as [H1 H2].
  pose proof (COS_bound (lat1 + lat2)) as [H3 H4].
  split; nra.
Qed.

Lemma sqrt_unit (x : R) : 0 <= x <= 1 -> 0 <= R_sqrt.sqrt x <= 1.
Proof.
  intros [H0 H1]. split.
  - apply sqrt_pos.
  - rewrite <- sqrt_1. now apply sqrt_le_1_alt.
Qed.

Lemma asin_unit (x : R) : 0 <= x <= 1 -> 0 <= asin x <= PI / 2.
Proof.
  intros [H0 H1]. pose proof (asin_bound x) as [Hl Hu]. split; [|exact Hu].
  destruct (Rle_or_lt 0 (asin x)) as [H | H]; [exact H|].
  pose proof PI_RGT_0.
  assert (Hs : sin (asin x) < 0) by (apply sin_lt_0_var; lra).
  rewrite sin_asin in Hs; lra.
Qed.

(** A bound on [PI] from Machin's series for [2 atan (1/3) + atan (1/7)]. *)
Lemma PI_bounds : 3.1415 < PI < 3.1416.
Proof.
  pose proof (PI_2_3_7_ineq 2) as [Hl Hu].
  unfold sum_f_R0, tg_alt, PI_2_3_7_tg, Ratan_seq in Hl, Hu.
  simpl in Hl, Hu. lra.
Qed.

(** ** The primitives on their domain *)

Lemma np_sqrt_ok (x : R) : 0 <= x -> np.sqrt x = Ok (R_sqrt.sqrt x).
Proof.
  intros H. unfold np.sqrt. destruct (Rle_dec 0 x); [reflexivity | contradiction].
Qed.

Lemma np_arcsin_ok (x : R) : -1 <= x <= 1 -> np.arcsin x = Ok (asin x).
Proof.
  intros [Hl Hu]. unfold np.arcsin.
  destruct (Rle_dec (-1) x); [|contradiction].
  destruct (Rle_dec x 1); [reflexivity | contradiction].
Qed.

(** ** The body on two points *)

(** On two points no error arises: the result is the radius times the
    central angle. *)
Lemma haversine_point (lon1 lat1 lon2 lat2 : R) :
  haversine (point lon1 lat1) (point lon2 lat2) =
  Ok (2 * EARTH_RADIUS *
      asin (R_sqrt.sqrt (hav_a (np.radians lon1) (np.radians lat1)
                               (np.radians lon2) (np.radians lat2)))).
Proof.
  unfold haversine, point; simpl.
  pose proof (hav_a_range (np.radians lon1) (np.radians lat1)
                (np.radians lon2) (np.radians lat2)) as Ha.
  rewrite np_sqrt_ok by apply Ha; simpl.
  pose proof (sqrt_unit _ Ha) as Hs.
  rewrite np_arcsin_ok by lra; reflexivity.
Qed.

Lemma EARTH_RADIUS_pos : 0 < EARTH_RADIUS.
Proof. unfold EARTH_RADIUS. lra. Qed.

Lemma central_angle_range (lon1 lat1 lon2 lat2 : R) :
  0 <= central_angle lon1 lat1 lon2 lat2 <= PI.
Proof.
  unfold central_angle.
  pose proof (asin_unit _ (sqrt_unit _ (hav_a_range
    (np.radians lon1) (np.radians lat1) (np.radians lon2) (np.radians lat2)))).
  lra.
Qed.

(** ** Arcs along a meridian and along the equator *)

Lemma radians_0 : np.radians 0 = 0.
Proof. unfold np.radians. ring. Qed.

Lemma radians_minus (x y : R) :
  np.radians x - np.radians y = np.radians (x - y).
Proof. unfold np.radians. ring. Qed.

Lemma radians_half_turn (d : R) :
  0 <= d <= 180 -> 0 <= np.radians d <= PI.
Proof.
  intros [H0 H1]. unfold np.radians. pose proof PI_RGT_0. split; nra.
Qed.

Lemma hav_a_same_lon (lon lat1 lat2 : R) :
  hav_a lon lat1 lon lat2 = sin ((lat2 - lat1) / 2) ^ 2.
Proof.
  unfold hav_a. replace ((lon - lon) / 2) with 0 by field.
  rewrite sin_0. ring.
Qed.

Lemma hav_a_equator (lon1 lon2 : R) :
  hav_a lon1 0 lon2 0 = sin ((lon2 - lon1) / 2) ^ 2.
Proof.
  unfold hav_a. replace ((0 - 0) / 2) with 0 by field.
  rewrite sin_0, cos_0. ring.
Qed.

Lemma arc_of_half_sine (x : R) :
  0 <= x <= PI -> 2 * asin (R_sqrt.sqrt (sin (x / 2) ^ 2)) = x.
Proof.
  intros [H0 H1].
  rewrite sqrt_pow2 by (apply sin_ge_0; lra).
  rewrite asin_sin by lra. field.
Qed.

Lemma haversine_meridian (lon lat1 lat2 : R) :
  0 <= lat2 - lat1 <= 180 ->
  haversine (point lon lat1) (point lon lat2) =
  Ok (EARTH_RADIUS * np.radians (lat2 - lat1)).
Proof.
  intros H. rewrite haversine_point, hav_a_same_lon, radians_minus.
  f_equal. rewrite Rmult_comm, <- Rmult_assoc, (Rmult_comm _ 2).
  rewrite arc_of_half_sine by now apply radians_half_turn.
  ring.
Qed.

Lemma haversine_equator (lon1 lon2 : R) :
  0 <= lon2 - lon1 <= 180 ->
  haversine (point lon1 0) (point lon2 0) =
  Ok (EARTH_RADIUS * np.radians (lon2 - lon1)).
Proof.
  intros H. rewrite haversine_point, radians_0, hav_a_equator, radians_minus.
  f_equal. rewrite Rmult_comm, <- Rmult_assoc, (Rmult_comm _ 2).
  rewrite arc_of_half_sine by now apply radians_half_turn.
  ring.
Qed.

(** ** The formula *)

Lemma hav_a_spec (lon1 lat1 lon2 lat2 : R) :
  hav_a (np.radians lon1) (np.radians lat1)
        (np.radians lon2) (np.radians lat2) =
  spec_a (lon1, lat1) (lon2, lat2).
Proof.
  unfold hav_a, spec_a, deg2rad, np.radians; simpl fst; simpl snd.
  rewrite !Rsqr_pow2.
  replace (lat1 * PI / 180) with (lat1 * (PI / 180)) by field.
  replace (lat2 * PI / 180) with (lat2 * (PI / 180)) by field.
  replace (lon1 * PI / 180) with (lon1 * (PI / 180)) by field.
  replace (lon2 * PI / 180) with (lon2 * (PI / 180)) by field.
  reflexivity.
Qed.

(** C1.  For every pair of points [(lon1, lat1)] and [(lon2, lat2)] in
    degrees, [haversine] returns exactly [2 * radius * arcsin (sqrt a)],
    the radius being [EARTH_RADIUS], where the coordinates are first
    converted to radians and
    [a = sin² ((lat2-lat1)/2) + cos lat1 * cos lat2 * sin² ((lon2-lon1)/2)]:
    the code agrees with the distance written after the specification. *)
Theorem haversine_formula (lon1 lat1 lon2 lat2 : R) :
  haversine (point lon1 lat1) (point lon2 lat2) =
  Ok (spec_distance EARTH_RADIUS (lon1, lat1) (lon2, lat2)).
Proof.
  rewrite haversine_point, hav_a_spec. reflexivity.
Qed.

(** ** The radius *)

Lemma call_two_points (point1 point2 : value) :
  call_haversine [point1; point2] [] = haversine point1 point2.
Proof. reflexivity. Qed.

(** C2, as the specification states it, fails: [haversine] has no radius
    parameter.  Supplying the radius 1 for the points [(0, 0)] and [(0, 1)],
    as a third positional argument or as the keyword [radius], raises
    [TypeError]; the call does not return the distance on the sphere of
    radius 1. *)
Lemma radius_argument_rejected :
  call_haversine [point 0 0; point 0 1; VFloat 1] [] = Raise TypeError /\
  call_haversine [point 0 0; point 0 1] [("radius"%string, VFloat 1)] =
    Raise TypeError /\
  call_haversine [point 0 0; point 0 1; VFloat 1] [] <>
    Ok (spec_distance 1 (0, 0) (0, 1)).
Proof.
  split; [reflexivity | split; [reflexivity | discriminate]].
Qed.

(** C2, amended.  [haversine] takes the two points and no radius argument: a
    call that supplies one, as a third positional argument or as the keyword
    [radius], raises [TypeError].  The sphere radius is the constant
    [EARTH_RADIUS = 6371.009], the mean radius of the earth in kilometers,
    and for every pair of points the returned value is that radius times the
    central angle in radians, hence a length in kilometers. *)
Theorem radius_is_earth_radius (lon1 lat1 lon2 lat2 : R) :
  EARTH_RADIUS = 6371.009 /\
  call_haversine [point lon1 lat1; point lon2 lat2] [] =
    Ok (EARTH_RADIUS * central_angle lon1 lat1 lon2 lat2) /\
  (forall radius : value,
     call_haversine [point lon1 lat1; point lon2 lat2; radius] [] =
       Raise TypeError) /\
  (forall radius : value,
     call_haversine [point lon1 lat1; point lon2 lat2]
       [("radius"%string, radius)] = Raise TypeError).
Proof.
  split; [reflexivity|]. split; [|split; intros; reflexivity].
  rewrite call_two_points, haversine_point. unfold central_angle.
  f_equal. ring.
Qed.

(** ** Algebraic properties *)

(** C4.  The distance from a point to itself is exactly 0. *)
Theorem haversine_self (lon lat : R) :
  haversine (point lon lat) (point lon lat) = Ok 0.
Proof.
  rewrite haversine_point, hav_a_same_lon.
  replace ((np.radians lat - np.radians lat) / 2) with 0 by field.
  rewrite sin_0. replace (0 ^ 2) with 0 by ring.
  rewrite sqrt_0, asin_0. f_equal. ring.
Qed.

Lemma hav_a_sym (lon1 lat1 lon2 lat2 : R) :
  hav_a lon1 lat1 lon2 lat2 = hav_a lon2 lat2 lon1 lat1.
Proof.
  unfold hav_a.
  replace ((lat1 - lat2) / 2) with (- ((lat2 - lat1) / 2)) by field.
  replace ((lon1 - lon2) / 2) with (- ((lon2 - lon1) / 2)) by field.
  rewrite !sin_neg. ring.
Qed.

(** C5.  The distance is symmetric in its two points. *)
Theorem haversine_sym (lon1 lat1 lon2 lat2 : R) :
  haversine (point lon1 lat1) (point lon2 lat2) =
  haversine (point lon2 lat2) (point lon1 lat1).
Proof.
  rewrite !haversine_point, hav_a_sym. reflexivity.
Qed.

(** ** Antipodes and the largest distance *)

Lemma hav_a_antipode (lon lat : R) :
  hav_a (np.radians lon) (np.radians lat)
        (np.radians (lon + 180)) (np.radians (- lat)) = 1.
Proof.
  unfold hav_a, np.radians.
  replace ((- lat * (PI / 180) - lat * (PI / 180)) / 2)
    with (- (lat * (PI / 180))) by field.
  replace (((lon + 180) * (PI / 180) - lon * (PI / 180)) / 2)
    with (PI / 2) by field.
  replace (- lat * (PI / 180)) with (- (lat * (PI / 180))) by ring.
  rewrite sin_neg, cos_neg, sin_PI2.
  pose proof (sin2_cos2 (lat * (PI / 180))) as H. unfold Rsqr in H.
  simpl. lra.
Qed.

(** C7.  For two antipodal points, such as [(0, 0)] and [(180, 0)], the
    distance is [PI] times the radius, and no distance is larger. *)
Theorem haversine_antipodal_max :
  haversine (point 0 0) (point 180 0) = Ok (PI * EARTH_RADIUS) /\
  (forall lon lat : R,
     haversine (point lon lat) (point (lon + 180) (- lat)) =
       Ok (PI * EARTH_RADIUS)) /\
  (forall lon1 lat1 lon2 lat2 : R,
     exists d : R,
       haversine (point lon1 lat1) (point lon2 lat2) = Ok d /\
       d <= PI * EARTH_RADIUS).
Proof.
  split; [|split].
  - rewrite haversine_equator by lra. f_equal. unfold np.radians. field.
  - intros lon lat. rewrite haversine_point, hav_a_antipode.
    rewrite sqrt_1, asin_1. f_equal. field.
  - intros lon1 lat1 lon2 lat2. eexists. split; [apply haversine_point|].
    pose proof (central_angle_range lon1 lat1 lon2 lat2) as [_ H].
    unfold central_angle in H. pose proof EARTH_RADIUS_pos. nra.
Qed.

(** ** One degree and ten degrees *)

(** C8.  The distance between [(0, 0)] and [(0, 1)], one degree of
    latitude, is [EARTH_RADIUS * (PI / 180)], which lies between 111.19 and
    111.20 km; the distance between [(0, 0)] and [(1, 0)], one degree of
    longitude on the equator, is the same value. *)
Theorem haversine_one_degree :
  haversine (point 0 0) (point 0 1) = Ok (EARTH_RADIUS * (PI / 180)) /\
  haversine (point 0 0) (point 1 0) = Ok (EARTH_RADIUS * (PI / 180)) /\
  111.19 < EARTH_RADIUS * (PI / 180) < 111.20.
Proof.
  split; [|split].
  - rewrite haversine_meridian by lra. f_equal. unfold np.radians. field.
  - rewrite haversine_equator by lra. f_equal. unfold np.radians. field.
  - pose proof PI_bounds. unfold EARTH_RADIUS. lra.
Qed.

(** C9.  The distance between [(0, 0)] and [(0, 10)] is strictly greater
    than the distance between [(0, 0)] and [(0, 1)]. *)
Theorem haversine_ten_exceeds_one :
  exists d10 d1 : R,
    haversine (point 0 0) (point 0 10) = Ok d10 /\
    haversine (point 0 0) (point 0 1) = Ok d1 /\
    d1 < d10.
Proof.
  exists (EARTH_RADIUS * np.radians (10 - 0)),
         (EARTH_RADIUS * np.radians (1 - 0)).
  split; [apply haversine_meridian; lra|].
  split; [apply haversine_meridian; lra|].
  unfold np.radians. pose proof EARTH_RADIUS_pos. pose proof PI_RGT_0. nra.
Qed.

(** ** A full turn of longitude *)

Lemma hav_a_lon_shift (lon1 lat1 lon2 lat2 s : R) :
  sin (s / 2) = 0 ->
  hav_a (lon1 + s) lat1 lon2 lat2 = hav_a lon1 lat1 lon2 lat2.
Proof.
  intros Hs. unfold hav_a.
  replace ((lon2 - (lon1 + s)) / 2) with ((lon2 - lon1) / 2 - s / 2)
    by field.
  rewrite sin_minus, Hs.
  pose proof (sin2_cos2 (s / 2)) as H. rewrite Hs in H. unfold Rsqr in H.
  assert (Hc : cos (s / 2) * cos (s / 2) = 1) by lra.
  simpl.
  replace ((sin ((lon2 - lon1) / 2) * cos (s / 2) -
            cos ((lon2 - lon1) / 2) * 0) *
           ((sin ((lon2 - lon1) / 2) * cos (s / 2) -
             cos ((lon2 - lon1) / 2) * 0) * 1))
    with (sin ((lon2 - lon1) / 2) * sin ((lon2 - lon1) / 2) *
          (cos (s / 2) * cos (s / 2))) by ring.
  rewrite Hc. ring.
Qed.

Lemma radians_full_turn (lon : R) :
  np.radians (lon + 360) = np.radians lon + 2 * PI.
Proof. unfold np.radians. field. Qed.

(** * Further properties of [haversine] *)

(** ** The great circle *)

Lemma dot_unit_vector (lon1 lat1 lon2 lat2 : R) :
  dot (unit_vector lon1 lat1) (unit_vector lon2 lat2) =
  sin (np.radians lat1) * sin (np.radians lat2) +
  cos (np.radians lat1) * cos (np.radians lat2) *
  cos (np.radians lon2 - np.radians lon1).
Proof.
  unfold dot, unit_vector. rewrite cos_minus. ring.
Qed.

Lemma hav_a_dot (lon1 lat1 lon2 lat2 : R) :
  hav_a (np.radians lon1) (np.radians lat1)
        (np.radians lon2) (np.radians lat2) =
  (1 - dot (unit_vector lon1 lat1) (unit_vector lon2 lat2)) / 2.
Proof.
  rewrite dot_unit_vector. unfold hav_a.
  rewrite !sin_half_sqr, cos_minus. field.
Qed.

Lemma dot_unit_range (lon1 lat1 lon2 lat2 : R) :
  -1 <= dot (unit_vector lon1 lat1) (unit_vector lon2 lat2) <= 1.
Proof.
  pose proof (hav_a_range (np.radians lon1) (np.radians lat1)
                (np.radians lon2) (np.radians lat2)) as H.
  rewrite hav_a_dot in H. lra.
Qed.

(** The cosine of the central angle is the inner product of the two unit
    vectors. *)
Lemma cos_central_angle (lon1 lat1 lon2 lat2 : R) :
  cos (central_angle lon1 lat1 lon2 lat2) =
  dot (unit_vector lon1 lat1) (unit_vector lon2 lat2).
Proof.
  unfold central_angle.
  pose proof (hav_a_range (np.radians lon1) (np.radians lat1)
                (np.radians lon2) (np.radians lat2)) as Ha.
  pose proof (sqrt_unit _ Ha) as Hs.
  rewrite cos_2a_sin, sin_asin by lra.
  rewrite Rmult_assoc, sqrt_sqrt by apply Ha.
  rewrite hav_a_dot. field.
Qed.

Lemma central_angle_acos (lon1 lat1 lon2 lat2 : R) :
  central_angle lon1 lat1 lon2 lat2 =
  acos (dot (unit_vector lon1 lat1) (unit_vector lon2 lat2)).
Proof.
  rewrite <- cos_central_angle, acos_cos; [reflexivity|].
  apply central_angle_range.
Qed.

Lemma haversine_central_angle (lon1 lat1 lon2 lat2 : R) :
  haversine (point lon1 lat1) (point lon2 lat2) =
  Ok (EARTH_RADIUS * central_angle lon1 lat1 lon2 lat2).
Proof.
  rewrite haversine_point. unfold central_angle. f_equal. ring.
Qed.

(** X1.  [haversine] returns the great-circle distance its docstring
    promises: on the sphere of radius [EARTH_RADIUS], the radius times the
    angle between the unit vectors of the two points. *)
Theorem haversine_great_circle (lon1 lat1 lon2 lat2 : R) :
  haversine (point lon1 lat1) (point lon2 lat2) =
  Ok (great_circle EARTH_RADIUS
        (unit_vector lon1 lat1) (unit_vector lon2 lat2)).
Proof.
  rewrite haversine_central_angle, central_angle_acos. reflexivity.
Qed.

(** ** The triangle inequality *)

Lemma unit_vector_norm (lon lat : R) :
  dot (unit_vector lon lat) (unit_vector lon lat) = 1.
Proof.
  unfold dot, unit_vector.
  pose proof (sin2_cos2 (np.radians lon)) as Hl.
  pose proof (sin2_cos2 (np.radians lat)) as Hp.
  unfold Rsqr in Hl, Hp.
  replace (cos (np.radians lat) * cos (np.radians lon) *
           (cos (np.radians lat) * cos (np.radians lon)) +
           cos (np.radians lat) * sin (np.radians lon) *
           (cos (np.radians lat) * sin (np.radians lon)) +
           sin (np.radians lat) * sin (np.radians lat))
    with (cos (np.radians lat) * cos (np.radians lat) *
          (sin (np.radians lon) * sin (np.radians lon) +
           cos (np.radians lon) * cos (np.radians lon)) +
          sin (np.radians lat) * sin (np.radians lat)) by ring.
  rewrite Hl. lra.
Qed.

(** The Gram determinant of three vectors is the square of their triple
    product. *)
Lemma gram_nonneg (u v w : vec) :
  0 <= dot u u * dot v v * dot w w
       - dot u u * (dot v w * dot v w)
       - dot v v * (dot u w * dot u w)
       - dot w w * (dot u v * dot u v)
       + 2 * (dot u v * dot v w * dot u w).
Proof.
  destruct u as [[ux uy] uz], v as [[vx vy] vz], w as [[wx wy] wz].
  unfold dot.
  match goal with |- 0 <= ?g =>
    replace g with
      ((ux * (vy * wz - vz * wy) - uy * (vx * wz - vz * wx)
        + uz * (vx * wy - vy * wx)) ^ 2) by ring
  end.
  apply pow2_ge_0.
Qed.

Lemma sin_central_angle (lon1 lat1 lon2 lat2 : R) :
  let t := central_angle lon1 lat1 lon2 lat2 in
  0 <= sin t /\ sin t * sin t = 1 - cos t * cos t.
Proof.
  intros t. split.
  - apply sin_ge_0; apply central_angle_range.
  - pose proof (sin2_cos2 t) as H. unfold Rsqr in H. lra.
Qed.

Lemma central_angle_triangle (lon1 lat1 lon2 lat2 lon3 lat3 : R) :
  central_angle lon1 lat1 lon3 lat3 <=
  central_angle lon1 lat1 lon2 lat2 + central_angle lon2 lat2 lon3 lat3.
Proof.
  pose proof (central_angle_range lon1 lat1 lon2 lat2) as R12.
  pose proof (central_angle_range lon2 lat2 lon3 lat3) as R23.
  pose proof (central_angle_range lon1 lat1 lon3 lat3) as R13.
  destruct (Rle_or_lt PI (central_angle lon1 lat1 lon2 lat2 +
                          central_angle lon2 lat2 lon3 lat3)) as [Hbig | Hsmall];
    [lra|].
  apply cos_decr_0; try lra.
  rewrite cos_plus.
  pose proof (sin_central_angle lon1 lat1 lon2 lat2) as [S12 Q12].
  pose proof (sin_central_angle lon2 lat2 lon3 lat3) as [S23 Q23].
  pose proof (gram_nonneg (unit_vector lon1 lat1) (unit_vector lon2 lat2)
                (unit_vector lon3 lat3)) as G.
  rewrite !unit_vector_norm in G.
  rewrite <- !cos_central_angle in G.
  set (c12 := cos (central_angle lon1 lat1 lon2 lat2)) in *.
  set (c23 := cos (central_angle lon2 lat2 lon3 lat3)) in *.
  set (c13 := cos (central_angle lon1 lat1 lon3 lat3)) in *.
  set (s12 := sin (central_angle lon1 lat1 lon2 lat2)) in *.
  set (s23 := sin (central_angle lon2 lat2 lon3 lat3)) in *.
  assert (P : 0 <= s12 * s23) by (apply Rmult_le_pos; assumption).
  assert (Q : (c13 - c12 * c23) * (c13 - c12 * c23) <=
              (s12 * s23) * (s12 * s23)).
  { replace (s12 * s23 * (s12 * s23)) with ((s12 * s12) * (s23 * s23)) by ring.
    rewrite Q12, Q23. lra. }
  destruct (Rle_or_lt (c12 * c23 - s12 * s23) c13) as [H | H]; [exact H|].
  exfalso. nra.
Qed.

(** X2.  In exact real arithmetic, [haversine] satisfies the triangle
    inequality: going from the first point to the third through any second
    point is never shorter than going directly. *)
Theorem haversine_triangle (lon1 lat1 lon2 lat2 lon3 lat3 : R) :
  exists d12 d23 d13 : R,
    haversine (point lon1 lat1) (point lon2 lat2) = Ok d12 /\
    haversine (point lon2 lat2) (point lon3 lat3) = Ok d23 /\
    haversine (point lon1 lat1) (point lon3 lat3) = Ok d13 /\
    d13 <= d12 + d23.
Proof.
  do 3 eexists. repeat split; try apply haversine_central_angle.
  pose proof (central_angle_triangle lon1 lat1 lon2 lat2 lon3 lat3).
  pose proof EARTH_RADIUS_pos. nra.
Qed.

(** ** Arguments that are not points *)

(** On two sequences of two floats the body runs to its end: it returns a
    number, or numpy's invalid value when the square root or the arc sine
    is reached outside its domain.  Nothing is used of the arithmetic. *)
Lemma haversine_point_shape (lon1 lat1 lon2 lat2 : R) :
  (exists d : R, haversine (point lon1 lat1) (point lon2 lat2) = Ok d) \/
  haversine (point lon1 lat1) (point lon2 lat2) = Raise InvalidValue.
Proof.
  unfold haversine, point; simpl.
  unfold np.sqrt.
  destruct (Rle_dec 0 _); simpl; [|now right].
  unfold np.arcsin.
  destruct (Rle_dec (-1) _); simpl; [|now right].
  destruct (Rle_dec _ 1); simpl; [|now right].
  left. eexists. reflexivity.
Qed.

(** X3.  [haversine] raises no exception, and returns a float (a number,
    or nan where numpy meets an invalid value), exactly when both arguments
    are sequences of two floats.  This holds whatever the arithmetic does:
    rounding can change the float returned, not whether one is returned. *)
Theorem haversine_returns_iff (point1 point2 : value) :
  ((exists d : R, haversine point1 point2 = Ok d) \/
   haversine point1 point2 = Raise InvalidValue) <->
  is_pair point1 /\ is_pair point2.
Proof.
  split.
  - intros H.
    destruct point1 as [x | [| a [| b [| c xs]]]];
      try (exfalso; destruct H as [[d H] | H]; discriminate H).
    split; [now exists a, b|].
    destruct point2 as [y | [| a' [| b' [| c' ys]]]];
      try (exfalso; destruct H as [[d H] | H]; discriminate H).
    now exists a', b'.
  - intros [(lon1 & lat1 & ->) (lon2 & lat2 & ->)].
    apply haversine_point_shape.
Qed.

(** ** The range of the formula *)

(** X4.  In exact real arithmetic and for all real coordinates, in or out
    of the geographic ranges, the intermediate value [a] lies in [0, 1]:
    [np.sqrt] and [np.arcsin] are applied inside their domains, and the
    result is a number between 0 and [PI] times the radius.  An [a] outside
    [0, 1], or a nan, in the float64 evaluation is an effect of rounding,
    not of the formula. *)
Theorem haversine_exact_range (lon1 lat1 lon2 lat2 : R) :
  let a := hav_a (np.radians lon1) (np.radians lat1)
                 (np.radians lon2) (np.radians lat2) in
  0 <= a <= 1 /\
  np.sqrt a = Ok (R_sqrt.sqrt a) /\
  np.arcsin (R_sqrt.sqrt a) = Ok (asin (R_sqrt.sqrt a)) /\
  exists d : R,
    haversine (point lon1 lat1) (point lon2 lat2) = Ok d /\
    0 <= d <= PI * EARTH_RADIUS.
Proof.
  intros a.
  pose proof (hav_a_range (np.radians lon1) (np.radians lat1)
                (np.radians lon2) (np.radians lat2)) as Ha. fold a in Ha.
  pose proof (sqrt_unit _ Ha) as Hs.
  split; [exact Ha|]. split; [apply np_sqrt_ok, Ha|].
  split; [apply np_arcsin_ok; lra|].
  eexists. split; [apply haversine_central_angle|].
  pose proof (central_angle_range lon1 lat1 lon2 lat2) as [H0 H1].
  pose proof EARTH_RADIUS_pos. split; nra.
Qed.

(** X5.  The two exceptions of the body tell which argument is at fault,
    the first one being examined first: [TypeError] exactly when the first
    argument is a float, or is a point and the second is a float;
    [ValueError] exactly when the first argument is a sequence of a length
    other than 2, or is a point and the second is such a sequence. *)
Theorem haversine_error_kind (point1 point2 : value) :
  (haversine point1 point2 = Raise TypeError <->
   (exists x : R, point1 = VFloat x) \/
   (is_pair point1 /\ exists x : R, point2 = VFloat x)) /\
  (haversine point1 point2 = Raise ValueError <->
   (exists xs : list R, point1 = VSeq xs /\ List.length xs <> 2%nat) \/
   (is_pair point1 /\
    exists xs : list R, point2 = VSeq xs /\ List.length xs <> 2%nat)).
Proof.
  assert (Hpair : forall xs : list R,
             is_pair (VSeq xs) -> List.length xs = 2%nat).
  { intros xs (lon & lat & H). injection H as ->. reflexivity. }
  assert (Hfloat : forall x : R, ~ is_pair (VFloat x)).
  { intros x (lon & lat & H). discriminate H. }
  destruct point1 as [x | xs].
  - (* the first argument is a float *)
    split; split.
    + intros _. left. now exists x.
    + reflexivity.
    + discriminate.
    + intros [(xs & H & _) | [H _]]; [discriminate H | now apply Hfloat in H].
  - destruct (Nat.eq_dec (List.length xs) 2) as [E | E].
    + (* the first argument is a point *)
      destruct xs as [| a [| b [| c xs]]]; try discriminate E.
      fold (point a b).
      assert (P1 : is_pair (point a b)) by now exists a, b.
      destruct point2 as [y | ys].
      * split; split.
        -- intros _. right. split; [exact P1 | now exists y].
        -- reflexivity.
        -- discriminate.
        -- intros [(zs & H & Hz) | [_ (zs & H & _)]].
           ++ injection H as <-. now elim Hz.
           ++ discriminate H.
      * destruct (Nat.eq_dec (List.length ys) 2) as [E2 | E2].
        -- destruct ys as [| a' [| b' [| c' ys]]]; try discriminate E2.
           fold (point a' b'). rewrite haversine_point.
           split; split; try discriminate.
           ++ intros [(z & H) | [_ (z & H)]]; discriminate H.
           ++ intros [(zs & H & Hz) | [_ (zs & H & Hz)]];
                injection H as <-; now elim Hz.
        -- assert (Hv : haversine (point a b) (VSeq ys) = Raise ValueError).
           { destruct ys as [| a' [| b' [| c' ys]]]; try reflexivity.
             now elim E2. }
           rewrite Hv. split; split; try discriminate.
           ++ intros [(z & H) | [_ (z & H)]]; discriminate H.
           ++ intros _. right. split; [exact P1 | now exists ys].
           ++ reflexivity.
    + (* the first argument has a wrong length *)
      assert (Hv : haversine (VSeq xs) point2 = Raise ValueError).
      { destruct xs as [| a [| b [| c xs]]]; try reflexivity. now elim E. }
      rewrite Hv. split; split; try discriminate.
      * intros [(z & H) | [H _]]; [discriminate H | now apply Hpair in H].
      * intros _. left. now exists xs.
      * reflexivity.
Qed.

(** ** The arguments of a call *)

Lemma bind_positional_error (ps : list string) (args : list value) (err : error) :
  bind_positional ps args = Raise err -> err = TypeError.
Proof.
  revert ps. induction args as [| v args IH]; intros [| p ps]; simpl;
    try congruence.
  destruct (bind_positional ps args) as [[e free] | err'] eqn:E; simpl.
  - discriminate.
  - intros H. injection H as <-. exact (IH _ E).
Qed.

Lemma bind_positional_ok (ps : list string) (args : list value)
  (e : env) (free : list string) :
  bind_positional ps args = Ok (e, free) ->
  (List.length args + List.length free = List.length ps)%nat /\
  exists bound : list string, ps = bound ++ free.
Proof.
  revert ps e free. induction args as [| v args IH]; intros ps e free.
  - destruct ps; simpl; intros H; injection H as <- <-;
      (split; [reflexivity | now exists []]).
  - destruct ps as [| p ps]; simpl; [discriminate|].
    destruct (bind_positional ps args) as [[e0 free0] | err] eqn:E; simpl;
      [|discriminate].
    intros H; injection H as <- <-.
    destruct (IH _ _ _ E) as [Hlen [bound ->]].
    split; [simpl; lia | now exists (p :: bound)].
Qed.

Lemma bind_keywords_error (kwargs : list (string * value))
  (free : list string) (e : env) (err : error) :
  bind_keywords free e kwargs = Raise err -> err = TypeError.
Proof.
  revert free e. induction kwargs as [| [k v] kwargs IH]; intros free e; simpl.
  - destruct free; congruence.
  - destruct (existsb (String.eqb k) free); [apply IH | congruence].
Qed.

Lemma filter_out_length (k : string) (l : list string) :
  NoDup l -> In k l ->
  S (List.length (filter (fun p => negb (String.eqb k p)) l)) = List.length l.
Proof.
  induction 1 as [| p l Hp Hl IH]; simpl; [tauto|].
  intros [-> | Hin].
  - rewrite String.eqb_refl; simpl. f_equal.
    rewrite (proj2 (filter_ext_in_iff _ (fun _ => true) l)).
    + clear. induction l; simpl; congruence.
    + intros q Hq. destruct (String.eqb k q) eqn:E; [|reflexivity].
      apply String.eqb_eq in E. subst q. contradiction.
  - destruct (String.eqb k p) eqn:E; simpl.
    + apply String.eqb_eq in E. subst p. contradiction.
    + f_equal. exact (IH Hin).
Qed.

Lemma bind_keywords_length (kwargs : list (string * value))
  (free : list string) (e e' : env) :
  NoDup free -> bind_keywords free e kwargs = Ok e' ->
  List.length kwargs = List.length free.
Proof.
  revert free e. induction kwargs as [| [k v] kwargs IH]; intros free e Hnd;
    simpl.
  - destruct free; [reflexivity | discriminate].
  - destruct (existsb (String.eqb k) free) eqn:E; [|discriminate].
    intros H. apply IH in H; [|now apply NoDup_filter].
    apply existsb_exists in E. destruct E as (p & Hp & Ekp).
    apply String.eqb_eq in Ekp. subst p.
    rewrite <- (filter_out_length k free Hnd Hp). now rewrite H.
Qed.

Lemma params_NoDup : NoDup params.
Proof.
  unfold params. repeat constructor; simpl; intuition discriminate.
Qed.

(** X6.  A call of [haversine] whose positional and keyword arguments are
    not two in all raises [TypeError]. *)
Theorem call_haversine_needs_two (args : list value)
  (kwargs : list (string * value)) :
  (List.length args + List.length kwargs <> 2)%nat ->
  call_haversine args kwargs = Raise TypeError.
Proof.
  intros Hn. unfold call_haversine.
  destruct (bind_positional params args) as [[e free] | err] eqn:Ep; simpl.
  - destruct (bind_positional_ok _ _ _ _ Ep) as [Hlen [bound Hb]].
    destruct (bind_keywords free e kwargs) as [e' | err] eqn:Ek; simpl.
    + exfalso. apply Hn.
      assert (Hnd : NoDup free).
      { pose proof params_NoDup as H. rewrite Hb in H.
        exact (NoDup_app_remove_l _ _ H). }
      rewrite (bind_keywords_length _ _ _ _ Hnd Ek).
      exact Hlen.
    + now rewrite (bind_keywords_error _ _ _ _ Ek).
  - now rewrite (bind_positional_error _ _ _ Ep).
Qed.

(** The notebook's two cities and a radius: three arguments. *)
Lemma call_haversine_needs_two_witness :
  call_haversine [point 10.75 59.91; point (-149.90) 61.22; VFloat 6371.009]
    [] = Raise TypeError.
Proof.
  apply call_haversine_needs_two. simpl. lia.
Defined.

Lemma bind_keywords_unknown (k : string) (v : value)
  (kwargs : list (string * value)) (free : list string) (e : env) :
  In (k, v) kwargs -> ~ In k free ->
  bind_keywords free e kwargs = Raise TypeError.
Proof.
  revert free e. induction kwargs as [| [k' v'] kwargs IH]; intros free e;
    simpl; [tauto|].
  intros Hin Hk.
  destruct (existsb (String.eqb k') free) eqn:E; [|reflexivity].
  destruct Hin as [Heq | Hin].
  - injection Heq as -> ->.
    apply existsb_exists in E. destruct E as (p & Hp & Ekp).
    apply String.eqb_eq in Ekp. subst p. contradiction.
  - apply IH; [exact Hin|].
    intros Hf. apply filter_In in Hf. tauto.
Qed.

(** X7.  A call of [haversine] with a keyword argument whose name is
    neither [point1] nor [point2], such as [radius], raises [TypeError],
    whatever the other arguments are. *)
Theorem call_haversine_unknown_keyword (args : list value)
  (kwargs : list (string * value)) (k : string) (v : value) :
  In (k, v) kwargs -> ~ In k params ->
  call_haversine args kwargs = Raise TypeError.
Proof.
  intros Hin Hk. unfold call_haversine.
  destruct (bind_positional params args) as [[e free] | err] eqn:Ep; simpl.
  - destruct (bind_positional_ok _ _ _ _ Ep) as [_ [bound Hb]].
    rewrite (bind_keywords_unknown k v kwargs free e Hin); [reflexivity|].
    intros Hf. apply Hk. rewrite Hb. apply in_or_app. now right.
  - now rewrite (bind_positional_error _ _ _ Ep).
Qed.

Lemma call_haversine_unknown_keyword_witness :
  call_haversine [point 10.75 59.91]
    [("point2", point (-149.90) 61.22); ("radius", VFloat 1)]%string
  = Raise TypeError.
Proof.
  apply (call_haversine_unknown_keyword _ _ "radius"%string (VFloat 1)).
  - simpl. right. left. reflexivity.
  - unfold params. simpl. intros [H | [H | []]]; discriminate H.
Defined.

(** X8.  The two points may be passed by position or by name, in either
    order of the names: every such call runs the body on the same
    arguments; a name given twice, once by position, raises [TypeError]. *)
Theorem call_haversine_by_name (p q : value) :
  call_haversine [] [("point1", p); ("point2", q)]%string = haversine p q /\
  call_haversine [] [("point2", q); ("point1", p)]%string = haversine p q /\
  call_haversine [p] [("point2", q)]%string = haversine p q /\
  call_haversine [p; q] [] = haversine p q /\
  call_haversine [p] [("point1", q)]%string = Raise TypeError.
Proof.
  repeat split; reflexivity.
Qed.

(** ** Arcs of a meridian and of the equator, in either direction *)

Lemma radians_Rabs (x : R) : np.radians (Rabs x) = Rabs (np.radians x).
Proof.
  unfold np.radians. pose proof PI_RGT_0.
  rewrite Rabs_mult, (Rabs_pos_eq (PI / 180)) by lra. reflexivity.
Qed.


Lemma radians_180 : np.radians 180 = PI.
Proof. unfold np.radians. field. Qed.






(** X10.  In exact real arithmetic, distances add up along a meridian:
    for three points of one meridian, in the order of their latitudes and
    at most 180 degrees from end to end, the distance between the ends is
    the sum of the two distances through the middle point. *)
Theorem haversine_meridian_additive (lon lat1 lat2 lat3 : R) :
  lat1 <= lat2 -> lat2 <= lat3 -> lat3 - lat1 <= 180 ->
  exists d12 d23 d13 : R,
    haversine (point lon lat1) (point lon lat2) = Ok d12 /\
    haversine (point lon lat2) (point lon lat3) = Ok d23 /\
    haversine (point lon lat1) (point lon lat3) = Ok d13 /\
    d13 = d12 + d23.
Proof.
  intros H12 H23 H13.
  exists (EARTH_RADIUS * np.radians (lat2 - lat1)),
         (EARTH_RADIUS * np.radians (lat3 - lat2)),
         (EARTH_RADIUS * np.radians (lat3 - lat1)).
  repeat split; try (apply haversine_meridian; lra).
  unfold np.radians. ring.
Qed.

Lemma haversine_meridian_additive_witness :
  exists d12 d23 d13 : R,
    haversine (point 0 0) (point 0 1) = Ok d12 /\
    haversine (point 0 1) (point 0 10) = Ok d23 /\
    haversine (point 0 0) (point 0 10) = Ok d13 /\
    d13 = d12 + d23.
Proof.
  apply (haversine_meridian_additive 0 0 1 10); lra.
Defined.





(** ** Rotations and reflections *)

Lemma radians_plus (x y : R) :
  np.radians (x + y) = np.radians x + np.radians y.
Proof. unfold np.radians. ring. Qed.

Lemma radians_opp (x : R) : np.radians (- x) = - np.radians x.
Proof. unfold np.radians. ring. Qed.

(** X13.  In exact real arithmetic, the distance depends on the longitudes
    only through their difference, modulo a full turn: it is unchanged when
    both points are turned by the same angle [s] about the axis of the
    Earth, and when 360 degrees are added to the longitude of either
    point. *)
Theorem haversine_lon_shift (lon1 lat1 lon2 lat2 s : R) :
  haversine (point (lon1 + s) lat1) (point (lon2 + s) lat2) =
    haversine (point lon1 lat1) (point lon2 lat2) /\
  haversine (point (lon1 + 360) lat1) (point lon2 lat2) =
    haversine (point lon1 lat1) (point lon2 lat2) /\
  haversine (point lon1 lat1) (point (lon2 + 360) lat2) =
    haversine (point lon1 lat1) (point lon2 lat2).
Proof.
  assert (Hs : sin (2 * PI / 2) = 0).
  { replace (2 * PI / 2) with PI by field. apply sin_PI. }
  split; [|split].
  - rewrite !haversine_point, !radians_plus. unfold hav_a.
    replace (np.radians lon2 + np.radians s -
             (np.radians lon1 + np.radians s))
      with (np.radians lon2 - np.radians lon1) by ring.
    reflexivity.
  - rewrite !haversine_point, radians_full_turn, hav_a_lon_shift by exact Hs.
    reflexivity.
  - rewrite !haversine_point, radians_full_turn.
    rewrite (hav_a_sym _ _ (np.radians lon2 + 2 * PI)).
    rewrite hav_a_lon_shift by exact Hs.
    rewrite hav_a_sym. reflexivity.
Qed.

(** X14.  Mirror images are as far apart as the points themselves: the
    distance is unchanged when both latitudes change sign (north and south
    exchanged) and when both longitudes change sign (east and west
    exchanged). *)
Theorem haversine_mirror (lon1 lat1 lon2 lat2 : R) :
  haversine (point lon1 (- lat1)) (point lon2 (- lat2)) =
    haversine (point lon1 lat1) (point lon2 lat2) /\
  haversine (point (- lon1) lat1) (point (- lon2) lat2) =
    haversine (point lon1 lat1) (point lon2 lat2).
Proof.
  split; rewrite !haversine_point, !radians_opp; unfold hav_a.
  - replace ((- np.radians lat2 - - np.radians lat1) / 2)
      with (- ((np.radians lat2 - np.radians lat1) / 2)) by field.
    rewrite sin_neg, !cos_neg.
    replace ((- sin ((np.radians lat2 - np.radians lat1) / 2)) ^ 2)
      with (sin ((np.radians lat2 - np.radians lat1) / 2) ^ 2) by ring.
    reflexivity.
  - replace ((- np.radians lon2 - - np.radians lon1) / 2)
      with (- ((np.radians lon2 - np.radians lon1) / 2)) by field.
    rewrite sin_neg.
    replace ((- sin ((np.radians lon2 - np.radians lon1) / 2)) ^ 2)
      with (sin ((np.radians lon2 - np.radians lon1) / 2) ^ 2) by ring.
    reflexivity.
Qed.

(** ** The poles *)

Lemma radians_90 : np.radians 90 = PI / 2.
Proof. unfold np.radians. field. Qed.

Lemma radians_m90 : np.radians (-90) = - (PI / 2).
Proof. unfold np.radians. field. Qed.




(** ** Distance zero *)

Lemma sin_zero_small (x : R) : - PI < x < PI -> sin x = 0 -> x = 0.
Proof.
  intros [Hl Hu] Hs.
  destruct (Rtotal_order x 0) as [Hneg | [H0 | Hpos]]; [| exact H0 |].
  - pose proof (sin_lt_0_var x Hl Hneg). lra.
  - pose proof (sin_gt_0 x Hpos Hu). lra.
Qed.

Lemma cos_zero_quarter (x : R) :
  - (PI / 2) <= x <= PI / 2 -> cos x = 0 -> x = PI / 2 \/ x = - (PI / 2).
Proof.
  intros [Hl Hu] Hc.
  destruct (Req_dec x (PI / 2)) as [| H1]; [now left|].
  destruct (Req_dec x (- (PI / 2))) as [| H2]; [now right|].
  assert (0 < cos x) by (apply cos_gt_0; lra). lra.
Qed.

Lemma radians_inj (x y : R) : np.radians x = np.radians y -> x = y.
Proof.
  unfold np.radians. intros H. pose proof PI_RGT_0.
  apply (Rmult_eq_reg_r (PI / 180)); [exact H | lra].
Qed.

Lemma radians_quarter (lat : R) :
  -90 <= lat <= 90 -> - (PI / 2) <= np.radians lat <= PI / 2.
Proof.
  intros H. unfold np.radians. pose proof PI_RGT_0. split; nra.
Qed.

Lemma pow2_zero (x : R) : x ^ 2 = 0 -> x = 0.
Proof. intros H. simpl in H. nra. Qed.

Lemma haversine_zero_hav_a (lon1 lat1 lon2 lat2 : R) :
  haversine (point lon1 lat1) (point lon2 lat2) = Ok 0 <->
  hav_a (np.radians lon1) (np.radians lat1)
        (np.radians lon2) (np.radians lat2) = 0.
Proof.
  rewrite haversine_point.
  pose proof (hav_a_range (np.radians lon1) (np.radians lat1)
                (np.radians lon2) (np.radians lat2)) as Ha.
  pose proof (sqrt_unit _ Ha) as Hs.
  pose proof EARTH_RADIUS_pos as Hr.
  split.
  - intros H. injection H as H.
    assert (Hz : asin (R_sqrt.sqrt
                   (hav_a (np.radians lon1) (np.radians lat1)
                          (np.radians lon2) (np.radians lat2))) = 0) by nra.
    apply sqrt_eq_0; [apply Ha|].
    rewrite <- (sin_asin (R_sqrt.sqrt _)) by lra.
    rewrite Hz. apply sin_0.
  - intros ->. rewrite sqrt_0, asin_0. f_equal. ring.
Qed.

(** X16.  In exact real arithmetic, for two points within the coordinate
    ranges, the distance is 0 exactly when they are the same place: the
    latitudes are equal, and either the longitudes are equal, or the place
    is a pole, or the two longitudes are -180 and 180, the same meridian. *)
Theorem haversine_zero_iff (lon1 lat1 lon2 lat2 : R) :
  in_range lon1 lat1 -> in_range lon2 lat2 ->
  (haversine (point lon1 lat1) (point lon2 lat2) = Ok 0 <->
   lat1 = lat2 /\
   (lon1 = lon2 \/ lat1 = 90 \/ lat1 = -90 \/
    lon2 - lon1 = 360 \/ lon1 - lon2 = 360)).
Proof.
  intros [Hlon1 Hlat1] [Hlon2 Hlat2].
  rewrite haversine_zero_hav_a.
  pose proof PI_RGT_0 as Hpi.
  pose proof (radians_quarter lat1 Hlat1) as Hq1.
  pose proof (radians_quarter lat2 Hlat2) as Hq2.
  split.
  - intros Ha. unfold hav_a in Ha.
    assert (Hc1 : 0 <= cos (np.radians lat1)) by (apply cos_ge_0; lra).
    assert (Hc2 : 0 <= cos (np.radians lat2)) by (apply cos_ge_0; lra).
    pose proof (pow2_ge_0 (sin ((np.radians lat2 - np.radians lat1) / 2)))
      as HA.
    pose proof (pow2_ge_0 (sin ((np.radians lon2 - np.radians lon1) / 2)))
      as HB.
    assert (HP : 0 <= cos (np.radians lat1) * cos (np.radians lat2) *
                      sin ((np.radians lon2 - np.radians lon1) / 2) ^ 2).
    { apply Rmult_le_pos; [apply Rmult_le_pos|]; assumption. }
    assert (HA0 : sin ((np.radians lat2 - np.radians lat1) / 2) ^ 2 = 0)
      by lra.
    assert (HP0 : cos (np.radians lat1) * cos (np.radians lat2) *
                  sin ((np.radians lon2 - np.radians lon1) / 2) ^ 2 = 0)
      by lra.
    apply pow2_zero, sin_zero_small in HA0; [|lra].
    assert (Hlat : lat1 = lat2) by (apply radians_inj; lra).
    split; [exact Hlat|]. subst lat2.
    apply Rmult_integral in HP0. destruct HP0 as [HP0 | HP0].
    + assert (Hc : cos (np.radians lat1) = 0).
      { apply Rmult_integral in HP0. tauto. }
      apply cos_zero_quarter in Hc; [|exact Hq1].
      unfold np.radians in Hc.
      destruct Hc as [Hc | Hc]; [right; left | right; right; left]; nra.
    + apply pow2_zero in HP0.
      set (x := (np.radians lon2 - np.radians lon1) / 2) in *.
      assert (Hx : - PI <= x <= PI).
      { unfold x, np.radians. split; nra. }
      destruct (Req_dec x PI) as [Hp | Hp].
      { right; right; right; left. unfold x, np.radians in Hp. nra. }
      destruct (Req_dec x (- PI)) as [Hm | Hm].
      { right; right; right; right. unfold x, np.radians in Hm. nra. }
      left. apply sin_zero_small in HP0; [|lra].
      apply radians_inj. unfold x in HP0. lra.
  - intros [<- H]. unfold hav_a.
    replace ((np.radians lat1 - np.radians lat1) / 2) with 0 by field.
    rewrite sin_0.
    destruct H as [<- | [-> | [-> | [H | H]]]].
    + replace ((np.radians lon1 - np.radians lon1) / 2) with 0 by field.
      rewrite sin_0. ring.
    + rewrite radians_90, cos_PI2. ring.
    + rewrite radians_m90, cos_neg, cos_PI2. ring.
    + replace ((np.radians lon2 - np.radians lon1) / 2) with PI.
      * rewrite sin_PI. ring.
      * rewrite radians_minus, H. unfold np.radians. field.
    + replace ((np.radians lon2 - np.radians lon1) / 2) with (- PI).
      * rewrite sin_neg, sin_PI. ring.
      * replace (np.radians lon2 - np.radians lon1)
          with (- (np.radians lon1 - np.radians lon2)) by ring.
        rewrite radians_minus, H. unfold np.radians. field.
Qed.

(** The two names of the antimeridian at latitude 45. *)
Lemma haversine_zero_iff_witness :
  haversine (point (-180) 45) (point 180 45) = Ok 0.
Proof.
  apply (proj2 (haversine_zero_iff (-180) 45 180 45
                  ltac:(unfold in_range; lra) ltac:(unfold in_range; lra))).
  split; [reflexivity|]. right; right; right; left. lra.
Defined.

(** ** Bounds by the differences of the coordinates *)








(** ** The largest distance *)

Lemma cos_one_small (x : R) : - PI <= x <= PI -> cos x = 1 -> x = 0.
Proof.
  intros [Hl Hu] Hc. pose proof PI_RGT_0 as Hpi.
  destruct (Req_dec x PI) as [-> | Hp]; [rewrite cos_PI in Hc; lra|].
  destruct (Req_dec x (- PI)) as [-> | Hm];
    [rewrite cos_neg, cos_PI in Hc; lra|].
  apply sin_zero_small; [lra|].
  pose proof (sin2_cos2 x) as H. unfold Rsqr in H. rewrite Hc in H. nra.
Qed.

Lemma cos_minus_one (x : R) :
  Rabs x <= 2 * PI -> cos x = -1 -> Rabs x = PI.
Proof.
  intros Hx Hc. pose proof (Rabs_pos x) as H0.
  assert (Hz : Rabs x - PI = 0).
  { apply cos_one_small; [lra|].
    rewrite cos_minus, cos_PI, sin_PI.
    assert (Ha : cos (Rabs x) = cos x).
    { destruct (Rle_or_lt 0 x) as [H | H].
      - now rewrite Rabs_pos_eq.
      - rewrite Rabs_left by exact H. apply cos_neg. }
    rewrite Ha, Hc. ring. }
  lra.
Qed.

Lemma haversine_max_hav_a (lon1 lat1 lon2 lat2 : R) :
  haversine (point lon1 lat1) (point lon2 lat2) = Ok (PI * EARTH_RADIUS) <->
  hav_a (np.radians lon1) (np.radians lat1)
        (np.radians lon2) (np.radians lat2) = 1.
Proof.
  rewrite haversine_point.
  pose proof (hav_a_range (np.radians lon1) (np.radians lat1)
                (np.radians lon2) (np.radians lat2)) as Ha.
  pose proof (sqrt_unit _ Ha) as Hs.
  pose proof EARTH_RADIUS_pos as Hr.
  split.
  - intros H. injection H as H.
    assert (Hz : asin (R_sqrt.sqrt
                   (hav_a (np.radians lon1) (np.radians lat1)
                          (np.radians lon2) (np.radians lat2))) = PI / 2)
      by nra.
    assert (Hq : R_sqrt.sqrt
                   (hav_a (np.radians lon1) (np.radians lat1)
                          (np.radians lon2) (np.radians lat2)) = 1).
    { rewrite <- (sin_asin (R_sqrt.sqrt _)) by lra.
      rewrite Hz. apply sin_PI2. }
    rewrite <- (sqrt_sqrt _ (proj1 Ha)), Hq. ring.
  - intros ->. rewrite sqrt_1, asin_1. f_equal. field.
Qed.

(** X19.  In exact real arithmetic, for two points within the coordinate
    ranges, the distance reaches its largest value, [PI] times the radius,
    exactly when the points are antipodal: the latitudes are opposite, and
    either the longitudes are 180 degrees apart or the points are the two
    poles. *)
Theorem haversine_max_iff (lon1 lat1 lon2 lat2 : R) :
  in_range lon1 lat1 -> in_range lon2 lat2 ->
  (haversine (point lon1 lat1) (point lon2 lat2) = Ok (PI * EARTH_RADIUS) <->
   lat2 = - lat1 /\
   (Rabs (lon2 - lon1) = 180 \/ lat1 = 90 \/ lat1 = -90)).
Proof.
  intros [Hlon1 Hlat1] [Hlon2 Hlat2].
  rewrite haversine_max_hav_a.
  pose proof PI_RGT_0 as Hpi.
  pose proof (radians_quarter lat1 Hlat1) as Hq1.
  pose proof (radians_quarter lat2 Hlat2) as Hq2.
  assert (Hpoles : Rabs (np.radians lat2 - np.radians lat1) = PI ->
                   lat2 = - lat1 /\ (lat1 = 90 \/ lat1 = -90)).
  { intros H. unfold np.radians in *.
    destruct (Rle_or_lt 0 (lat2 * (PI / 180) - lat1 * (PI / 180))) as [Hs | Hs].
    - rewrite Rabs_pos_eq in H by exact Hs.
      assert (lat1 = -90) by nra. assert (lat2 = 90) by nra.
      split; [lra | right; assumption].
    - rewrite Rabs_left in H by exact Hs.
      assert (lat1 = 90) by nra. assert (lat2 = -90) by nra.
      split; [lra | left; assumption]. }
  split.
  - intros Ha. rewrite hav_a_convex in Ha. cbv zeta in Ha.
    set (T := sin ((np.radians lon2 - np.radians lon1) / 2) ^ 2) in Ha.
    pose proof (sin_sqr_bounds ((np.radians lon2 - np.radians lon1) / 2))
      as HT. fold T in HT.
    pose proof (COS_bound (np.radians lat2 - np.radians lat1)) as [D1 D2].
    pose proof (COS_bound (np.radians lat1 + np.radians lat2)) as [S1 S2].
    assert (E1 : (1 - T) * (1 + cos (np.radians lat2 - np.radians lat1)) = 0)
      by nra.
    assert (E2 : T * (1 - cos (np.radians lat1 + np.radians lat2)) = 0)
      by nra.
    assert (Hopp : cos (np.radians lat2 - np.radians lat1) = -1 ->
                   lat2 = - lat1 /\
                   (Rabs (lon2 - lon1) = 180 \/ lat1 = 90 \/ lat1 = -90)).
    { intros Hc. apply cos_minus_one in Hc.
      - destruct (Hpoles Hc) as [? ?]. tauto.
      - apply Rabs_le. lra. }
    apply Rmult_integral in E2. destruct E2 as [T0 | C1].
    + apply Hopp. rewrite T0 in E1. lra.
    + apply Rmult_integral in E1. destruct E1 as [T1 | S'].
      * assert (Hsum : np.radians lat1 + np.radians lat2 = 0).
        { apply cos_one_small; lra. }
        split; [unfold np.radians in Hsum; nra|]. left.
        assert (Hc : cos (np.radians lon2 - np.radians lon1) = -1).
        { pose proof (sin_half_sqr (np.radians lon2 - np.radians lon1)) as Hh.
          fold T in Hh. lra. }
        apply cos_minus_one in Hc.
        -- rewrite radians_minus, <- radians_Rabs in Hc.
           unfold np.radians in Hc. nra.
        -- apply Rabs_le. unfold np.radians. split; nra.
      * apply Hopp. lra.
  - intros [-> H].
    rewrite radians_opp. unfold hav_a. rewrite cos_neg.
    replace ((- np.radians lat1 - np.radians lat1) / 2)
      with (- np.radians lat1) by field.
    rewrite sin_neg.
    pose proof (sin2_cos2 (np.radians lat1)) as Hsc. unfold Rsqr in Hsc.
    destruct H as [H | [-> | ->]].
    + assert (Hs : sin ((np.radians lon2 - np.radians lon1) / 2) ^ 2 = 1).
      { rewrite sin_half_sqr, radians_minus.
        assert (Hc : cos (np.radians (lon2 - lon1)) = -1).
        { destruct (Rle_or_lt 0 (lon2 - lon1)) as [Hp | Hn].
          - rewrite Rabs_pos_eq in H by exact Hp. rewrite H, radians_180.
            apply cos_PI.
          - rewrite Rabs_left in H by exact Hn.
            replace (lon2 - lon1) with (Ropp 180) by lra.
            rewrite radians_opp, radians_180, cos_neg. apply cos_PI. }
        rewrite Hc. field. }
      rewrite Hs. simpl. lra.
    + rewrite radians_90, cos_PI2, sin_PI2. simpl. lra.
    + rewrite radians_m90, cos_neg, cos_PI2, sin_neg, sin_PI2. simpl. lra.
Qed.

(** Quito and its antipode near Pekanbaru, rounded to whole degrees. *)
Lemma haversine_max_iff_witness :
  haversine (point (-78) 0) (point 102 0) = Ok (PI * EARTH_RADIUS).
Proof.
  apply (proj2 (haversine_max_iff (-78) 0 102 0
                  ltac:(unfold in_range; lra) ltac:(unfold in_range; lra))).
  split; [lra|]. left. rewrite Rabs_pos_eq by lra. lra.
Defined.

(** * The colours of the clusters *)

Lemma sklearn_colors_defined (l : Z) :
  (0 <= l <= 2)%Z -> exists c : string, dict_get sklearn_colors l = Some c.
Proof.
  intros H.
  assert (Hl : l = 0%Z \/ l = 1%Z \/ l = 2%Z) by lia.
  destruct Hl as [-> | [-> | ->]]; eexists; reflexivity.
Qed.

Lemma scipy_colors_shift (l : Z) :
  dict_get scipy_colors (l + 1) = dict_get sklearn_colors l.
Proof.
  unfold scipy_colors, sklearn_colors; simpl.
  destruct (Z.eqb_spec l 0) as [-> | H0]; [reflexivity|].
  destruct (Z.eqb_spec (l + 1) 1) as [E | _]; [lia|].
  destruct (Z.eqb_spec l 1) as [-> | H1]; [reflexivity|].
  destruct (Z.eqb_spec (l + 1) 2) as [E | _]; [lia|].
  destruct (Z.eqb_spec l 2) as [-> | H2]; [reflexivity|].
  destruct (Z.eqb_spec (l + 1) 3) as [E | _]; [lia|].
  reflexivity.
Qed.

(** X20.  Numbering the clusters from 1, as scipy does, instead of from 0,
    as scikit-learn does, gives every observation the same colour: the
    second dict is the first one shifted by one label. *)
Theorem cluster_colors_shift (s : list Z) :
  Series_map scipy_colors (map (fun l => (l + 1)%Z) s) =
  Series_map sklearn_colors s.
Proof.
  unfold Series_map. rewrite map_map.
  apply map_ext. intros l. apply scipy_colors_shift.
Qed.

(** X21.  Every observation gets a colour, none NaN, when the labels are
    those of three clusters: 0 to 2 with the dict of the scikit-learn cell,
    1 to 3 with the dict of the scipy cell. *)
Theorem cluster_colors_defined (s0 s1 : list Z) :
  Forall (fun l => (0 <= l <= 2)%Z) s0 ->
  Forall (fun l => (1 <= l <= 3)%Z) s1 ->
  (exists cs : list string, Series_map sklearn_colors s0 = map Some cs) /\
  (exists cs : list string, Series_map scipy_colors s1 = map Some cs).
Proof.
  intros H0 H1. split.
  - induction H0 as [| l s Hl _ [cs IH]]; [now exists []|].
    destruct (sklearn_colors_defined l Hl) as [c Hc].
    exists (c :: cs). unfold Series_map in *. cbn [map]. now rewrite Hc, IH.
  - induction H1 as [| l s Hl _ [cs IH]]; [now exists []|].
    destruct (sklearn_colors_defined (l - 1)) as [c Hc]; [lia|].
    rewrite <- scipy_colors_shift in Hc.
    replace (l - 1 + 1)%Z with l in Hc by lia.
    exists (c :: cs). unfold Series_map in *. cbn [map]. now rewrite Hc, IH.
Qed.

Lemma cluster_colors_defined_witness :
  (exists cs : list string,
     Series_map sklearn_colors [0; 2; 1; 1; 0]%Z = map Some cs) /\
  (exists cs : list string,
     Series_map scipy_colors [1; 3; 2; 2; 1]%Z = map Some cs).
Proof.
  apply cluster_colors_defined; repeat constructor; lia.
Defined.

(** X22.  Different clusters get different colours: with either dict, two
    labels that map to the same colour are the same label. *)
Theorem cluster_colors_injective (d : dict) (l1 l2 : Z) (c : string) :
  d = sklearn_colors \/ d = scipy_colors ->
  dict_get d l1 = Some c -> dict_get d l2 = Some c -> l1 = l2.
Proof.
  assert (Hsk : forall a b : Z,
             dict_get sklearn_colors a = Some c ->
             dict_get sklearn_colors b = Some c -> a = b).
  { intros a b. unfold sklearn_colors; simpl.
    destruct (Z.eqb_spec a 0), (Z.eqb_spec a 1), (Z.eqb_spec a 2),
      (Z.eqb_spec b 0), (Z.eqb_spec b 1), (Z.eqb_spec b 2);
      intros Ha Hb; try congruence; try lia. }
  intros [-> | ->]; [apply Hsk|].
  intros H1 H2.
  replace l1 with (l1 - 1 + 1)%Z in H1 by lia.
  replace l2 with (l2 - 1 + 1)%Z in H2 by lia.
  rewrite scipy_colors_shift in H1, H2.
  pose proof (Hsk _ _ H1 H2). lia.
Qed.

Lemma cluster_colors_injective_witness :
  dict_get scipy_colors 2 = Some "b"%string /\ 2%Z = 2%Z.
Proof.
  split; [reflexivity|].
  apply (cluster_colors_injective scipy_colors 2 2 "b"%string);
    [right; reflexivity | reflexivity | reflexivity].
Defined.
